(** * Line-aware message splitting of [handlers/tasks.py]

    A shallow embedding of [split_message_by_lines], the helper that cuts a
    long Telegram message into chunks without breaking a line, together with
    the properties the specification states about it.

    Python [str] values are modelled by [string]; only two things are ever
    observed about a character: how many there are ([len]) and whether one
    is the newline character.  The chunk size is a Python [int], hence [Z]. *)

From Stdlib Require Import ZArith Lia Ascii.
From stdpp Require Import list strings gmap.

Local Open Scope Z_scope.

(** ** Strings as the source uses them *)

Definition newline : ascii := "010"%char.

(** The one-character string ['\n']. *)
Definition NL : string := String newline "".

(** [len(s)] *)
Definition len (s : string) : Z := Z.of_nat (String.length s).

(** [s.split('\n')]: the maximal newline-free pieces of [s], in order.  The
    result is never empty; [''.split('\n')] is [['']]. *)
Fixpoint split_newline (s : string) : list string :=
  match s with
  | EmptyString => [EmptyString]
  | String c s' =>
      if decide (c = newline) then EmptyString :: split_newline s'
      else match split_newline s' with
           | [] => [String c EmptyString]
           | l :: ls => String c l :: ls
           end
  end.

(** ['\n'.join(ls)], the inverse direction. *)
Definition join_newline (ls : list string) : string := String.concat NL ls.

(** A string without any newline character. *)
Fixpoint newline_free (s : string) : Prop :=
  match s with
  | EmptyString => True
  | String c s' => c ≠ newline ∧ newline_free s'
  end.

(** A text in which every character is a newline. *)
Fixpoint only_newlines (s : string) : Prop :=
  match s with
  | EmptyString => True
  | String c s' => c = newline ∧ only_newlines s'
  end.

(** The text made of [n] newline characters. *)
Fixpoint newlines (n : nat) : string :=
  match n with
  | O => EmptyString
  | S n' => String newline (newlines n')
  end.

(** ** The loop of [split_message_by_lines] *)

(** The two locals the loop updates. *)
Record loop_state : Type := LoopState {
  chunks : list string;
  current_chunk : string
}.

(** [chunks = []; current_chunk = ""] *)
Definition initial_state : loop_state :=
  {| chunks := []; current_chunk := "" |}.

(** One iteration of [for line in lines].  [if current_chunk:] is the
    truth value of a string: true exactly when it is not empty. *)
Definition loop_body (chunk_size : Z) (st : loop_state) (line : string)
  : loop_state :=
  if decide (len (current_chunk st) + len line + 1 > chunk_size) then
    {| chunks := if decide (current_chunk st ≠ "")
                 then chunks st ++ [current_chunk st]
                 else chunks st;
       current_chunk := line |}
  else
    if decide (current_chunk st = "") then
      {| chunks := chunks st; current_chunk := line |}
    else
      {| chunks := chunks st;
         current_chunk := current_chunk st +:+ NL +:+ line |}.

(** The statements after the loop: the last chunk is kept when not empty. *)
Definition final_chunks (st : loop_state) : list string :=
  if decide (current_chunk st ≠ "")
  then chunks st ++ [current_chunk st]
  else chunks st.

(** The whole loop, started from any state. *)
Definition run_loop (chunk_size : Z) (st : loop_state) (lines : list string)
  : loop_state :=
  foldl (loop_body chunk_size) st lines.

Definition split_message_by_lines (text : string) (chunk_size : Z)
  : list string :=
  if decide (len text ≤ chunk_size) then [text]
  else
    let lines := split_newline text in
    final_chunks (run_loop chunk_size initial_state lines).

(** What the loop and the final flush return when started with no chunk
    emitted yet and [cur] in the accumulator. *)
Definition chunks_from (chunk_size : Z) (cur : string) (lines : list string)
  : list string :=
  final_chunks
    (run_loop chunk_size {| chunks := []; current_chunk := cur |} lines).

(** ** Vocabulary of the properties *)

(** The lines of a list of chunks, chunk after chunk. *)
Definition chunk_lines (cs : list string) : list string :=
  concat (map split_newline cs).

(** The lines held by the accumulator: none when it is empty. *)
Definition held_lines (cur : string) : list string :=
  if decide (cur = "") then [] else split_newline cur.

(** A line with some content. *)
Definition nonblank (l : string) : Prop := l ≠ "".

#[global] Instance nonblank_dec l : Decision (nonblank l) :=
  decide (l ≠ "").

(** [blank_padded cs ls]: the lines [ls] are the lines of the chunks [cs],
    chunk after chunk, with empty lines possibly put before the first
    chunk, between two chunks and after the last one, never inside one. *)
Inductive blank_padded : list string → list string → Prop :=
  | padded_done : blank_padded [] []
  | padded_blank cs ls :
      blank_padded cs ls → blank_padded cs ("" :: ls)
  | padded_chunk c cs ls :
      blank_padded cs ls → blank_padded (c :: cs) (split_newline c ++ ls).

(** [greedy_chunking chunk_size cs ls]: as [blank_padded], and moreover
    the line of [ls] that follows the lines of a chunk, if there is one,
    would not have fitted behind that chunk. *)
Inductive greedy_chunking (chunk_size : Z)
  : list string → list string → Prop :=
  | greedy_done : greedy_chunking chunk_size [] []
  | greedy_blank cs ls :
      greedy_chunking chunk_size cs ls →
      greedy_chunking chunk_size cs ("" :: ls)
  | greedy_chunk c cs ls :
      (∀ l, head ls = Some l → chunk_size < len c + 1 + len l) →
      greedy_chunking chunk_size cs ls →
      greedy_chunking chunk_size (c :: cs) (split_newline c ++ ls).

(** [c] occurs in [t] as a contiguous run of characters. *)
Definition substring_of (c t : string) : Prop :=
  ∃ p q : string, t = p +:+ c +:+ q.

(** The first line of a chunk. *)
Definition first_line (c : string) : string :=
  default "" (head (split_newline c)).

(** Either nothing is accumulated, or it fits, or it is one line of [L]. *)
Definition fits_or_line (chunk_size : Z) (L : list string) (cur : string)
  : Prop :=
  cur = "" ∨ len cur ≤ chunk_size ∨ cur ∈ L.

(** How many times [l] occurs in a list of strings. *)
Definition occurrences (l : string) (xs : list string) : nat :=
  count_occ String.eq_dec xs l.

(** A chunk holding a line longer than the chunk size holds nothing else. *)
Definition oversized_alone (chunk_size : Z) (c : string) : Prop :=
  ∀ l, l ∈ split_newline c → chunk_size < len l → c = l.

(** Between two consecutive chunks, the line that opens the later one did
    not fit at the end of the earlier one. *)
Definition maximal_chunks (chunk_size : Z) (cs : list string) : Prop :=
  ∀ (i : nat) (c c' : string),
    cs !! i = Some c → cs !! S i = Some c' →
    chunk_size < len c + 1 + len (first_line c').

(** ** The reference algorithm, as the specification words it *)

Module Reference.

(** "current length + line length + 1 for the joining newline, except
    when the current chunk is empty, in which case no separator is
    added" *)
Definition prospective_length (cur line : string) : Z :=
  if decide (cur = "") then len cur + len line
  else len cur + len line + 1.

(** Step 3: flush when the current chunk is non-empty and appending
    would exceed the limit; otherwise append the line, joined by a
    newline if the chunk was already non-empty. *)
Definition step (limit : Z) (st : loop_state) (line : string)
  : loop_state :=
  if decide (current_chunk st ≠ ""
             ∧ prospective_length (current_chunk st) line > limit) then
    {| chunks := chunks st ++ [current_chunk st];
       current_chunk := line |}
  else
    {| chunks := chunks st;
       current_chunk :=
         if decide (current_chunk st ≠ "")
         then current_chunk st +:+ NL +:+ line
         else current_chunk st +:+ line |}.

(** Steps 2 to 4, on the lines of step 1. *)
Definition general_path (limit : Z) (lines : list string) : list string :=
  let st := foldl (step limit) initial_state lines in
  if decide (current_chunk st ≠ "")
  then chunks st ++ [current_chunk st]
  else chunks st.

(** The contract [split(text, limit)]: fast path, else general path. *)
Definition split (text : string) (limit : Z) : list string :=
  if decide (len text ≤ limit) then [text]
  else general_path limit (split_newline text).

End Reference.

(** ** The function as a program over a store

    The same source, read statement by statement, with every name it
    mentions looked up in, and assigned to, a store.  The store stands for
    all the names a call can see: on entry the two arguments are bound, and
    nothing is assumed of any other name. *)

(** The values the function handles. *)
Inductive value : Type :=
  | VStr (s : string)
  | VInt (n : Z)
  | VList (l : list string).

Abbreviation store := (gmap string value).

(** A statement: it may fail (a name that is unbound or holds a value of
    another type), or give a result and the store it leaves. *)
Definition prog (A : Type) : Type := store → option (A * store).

Definition ret {A : Type} (a : A) : prog A := λ σ, Some (a, σ).

Definition bind {A B : Type} (m : prog A) (k : A → prog B) : prog B :=
  λ σ, match m σ with
       | Some (a, σ') => k a σ'
       | None => None
       end.

Notation "'let*' x := m 'in' k" := (bind m (λ x, k))
  (at level 10, x name, m at level 100, k at level 200).
Notation "m ;;; k" := (bind m (λ _, k))
  (at level 100, k at level 200, right associativity).

(** Reading a name that holds a string, an integer, a list. *)
Definition load_str (x : string) : prog string :=
  λ σ, match σ !! x with Some (VStr s) => Some (s, σ) | _ => None end.

Definition load_int (x : string) : prog Z :=
  λ σ, match σ !! x with Some (VInt n) => Some (n, σ) | _ => None end.

Definition load_list (x : string) : prog (list string) :=
  λ σ, match σ !! x with Some (VList l) => Some (l, σ) | _ => None end.

(** [x = v] *)
Definition assign (x : string) (v : value) : prog unit :=
  λ σ, Some (tt, <[x := v]> σ).

(** [for item in items: body] *)
Fixpoint for_each (items : list string) (body : string → prog unit)
  : prog unit :=
  match items with
  | [] => ret tt
  | item :: rest => body item ;;; for_each rest body
  end.

(** [chunks.append(current_chunk)] *)
Definition append_current_chunk : prog unit :=
  let* chunks := load_list "chunks" in
  let* current_chunk := load_str "current_chunk" in
  assign "chunks" (VList (chunks ++ [current_chunk])).

(** The body of [for line in lines], the loop variable being bound to the
    next item first. *)
Definition loop_statement (item : string) : prog unit :=
  assign "line" (VStr item) ;;;
  let* current_chunk := load_str "current_chunk" in
  let* line := load_str "line" in
  let* chunk_size := load_int "chunk_size" in
  if decide (len current_chunk + len line + 1 > chunk_size) then
    (let* current_chunk := load_str "current_chunk" in
     if decide (current_chunk ≠ "") then append_current_chunk else ret tt) ;;;
    let* line := load_str "line" in
    assign "current_chunk" (VStr line)
  else
    let* current_chunk := load_str "current_chunk" in
    if decide (current_chunk = "") then
      let* line := load_str "line" in
      assign "current_chunk" (VStr line)
    else
      let* current_chunk := load_str "current_chunk" in
      let* line := load_str "line" in
      assign "current_chunk" (VStr (current_chunk +:+ NL +:+ line)).

(** The statements of [split_message_by_lines], in order. *)
Definition split_message_by_lines_body : prog (list string) :=
  let* text := load_str "text" in
  let* chunk_size := load_int "chunk_size" in
  if decide (len text ≤ chunk_size) then ret [text]
  else
    assign "chunks" (VList []) ;;;
    assign "current_chunk" (VStr "") ;;;
    let* text := load_str "text" in
    assign "lines" (VList (split_newline text)) ;;;
    let* lines := load_list "lines" in
    for_each lines loop_statement ;;;
    (let* current_chunk := load_str "current_chunk" in
     if decide (current_chunk ≠ "") then append_current_chunk else ret tt) ;;;
    load_list "chunks".

(** A call: the arguments are bound in the store the call finds, then the
    body runs.  [None] would be a call that fails. *)
Definition call_split_message_by_lines (σ : store) (text : string)
    (chunk_size : Z) : option (list string * store) :=
  split_message_by_lines_body
    (<["text" := VStr text]> (<["chunk_size" := VInt chunk_size]> σ)).

(** The names the function binds: its parameters and its locals. *)
Definition local_names : list string :=
  ["text"; "chunk_size"; "chunks"; "current_chunk"; "lines"; "line"].

(** The store holds the locals of the loop state [st]. *)
Definition store_holds (σ : store) (st : loop_state) (chunk_size : Z)
  : Prop :=
  σ !! "chunks" = Some (VList (chunks st))
  ∧ σ !! "current_chunk" = Some (VStr (current_chunk st))
  ∧ σ !! "chunk_size" = Some (VInt chunk_size).

(** Two stores agree on every name that is not one of the function's. *)
Definition same_outside (σ σ' : store) : Prop :=
  ∀ x, x ∉ local_names → σ' !! x = σ !! x.

(** ** The other helpers of the module

    Literals of the source that are not ASCII stand as their UTF-8 bytes;
    nothing below counts their characters. *)

(** The dictionary [STATUS_MAPPING]. *)
Definition STATUS_MAPPING : gmap string string :=
  {[ "in_progress" := "进行中"; "completed" := "已完成" ]}.

(** [STATUS_MAPPING.get(status, status)] *)
Definition get_status_display (status : string) : string :=
  default status (STATUS_MAPPING !! status).

(** The backslash character. *)
Definition backslash : ascii := "092"%char.

(** What [escape_markdown] may be handed: a [str], or an object of any
    other type. *)
Inductive py_object : Type :=
  | Str (s : string)
  | NotStr.

(** [s.replace(old, new)] when [old] is one character: every occurrence,
    left to right. *)
Fixpoint replace_char (old : ascii) (new : string) (s : string) : string :=
  match s with
  | EmptyString => EmptyString
  | String c s' =>
      if decide (c = old) then new +:+ replace_char old new s'
      else String c (replace_char old new s')
  end.

(** [special_chars], the characters MarkdownV2 wants escaped. *)
Definition special_chars : string := "_*[]()~`>#+-=|{}.!".

(** The characters of a string, as [for char in s] visits them. *)
Definition chars (s : string) : list ascii := String.list_ascii_of_string s.

(** The loop of [escape_markdown]:
    [for char in special_chars: text = text.replace(char, '\\' + char)]. *)
Definition escape_text (text : string) : string :=
  foldl (λ text char,
           replace_char char (String backslash (String char EmptyString)) text)
        text (chars special_chars).

Definition escape_markdown (text : py_object) : string :=
  match text with
  | NotStr => ""
  | Str s => escape_text s
  end.

(** [c in special_chars] *)
Definition is_special (c : ascii) : Prop := c ∈ chars special_chars.

(** One left-to-right pass that puts a backslash in front of each special
    character: what the loop of replacements is compared with. *)
Fixpoint escape_pass (s : string) : string :=
  match s with
  | EmptyString => EmptyString
  | String c s' =>
      if decide (is_special c)
      then String backslash (String c (escape_pass s'))
      else String c (escape_pass s')
  end.

(** The number of special characters of a string. *)
Fixpoint special_count (s : string) : nat :=
  match s with
  | EmptyString => O
  | String c s' =>
      if decide (is_special c) then S (special_count s') else special_count s'
  end.

(** The inverse pass: a backslash standing before a special character is
    dropped. *)
Fixpoint unescape_pass (s : string) : string :=
  match s with
  | EmptyString => EmptyString
  | String c s' =>
      let next_is_special :=
        match s' with
        | String d _ => bool_decide (is_special d)
        | EmptyString => false
        end in
      if bool_decide (c = backslash) && next_is_special
      then unescape_pass s'
      else String c (unescape_pass s')
  end.

(** ** Pieces of [tasks_command] *)

(** [s.split(sep)] when [sep] is one character. *)
Fixpoint split_char (sep : ascii) (s : string) : list string :=
  match s with
  | EmptyString => [EmptyString]
  | String c s' =>
      if decide (c = sep) then EmptyString :: split_char sep s'
      else match split_char sep s' with
           | [] => [String c EmptyString]
           | l :: ls => String c l :: ls
           end
  end.

(** A string in which the character [c] does not occur. *)
Fixpoint char_free (c : ascii) (s : string) : Prop :=
  match s with
  | EmptyString => True
  | String d s' => d ≠ c ∧ char_free c s'
  end.

(** The character ['=']. *)
Definition equals_sign : ascii := "="%char.

(** The loop over the command arguments: the first argument that starts
    with ["status="] decides and ends the loop.  [None] stands for the
    [IndexError] that [arg.split("=")[1]] would raise. *)
Fixpoint find_status (status : string) (args : list string) : option string :=
  match args with
  | [] => Some status
  | arg :: rest =>
      if String.prefix "status=" arg
      then split_char equals_sign arg !! 1%nat
      else find_status status rest
  end.

(** The argument parsing of [tasks_command]; [context.args] is a list or
    [None], and [if args:] skips both [None] and the empty list. *)
Definition parse_status (args : option (list string)) : option string :=
  let status := "in_progress" in
  match args with
  | None => Some status
  | Some [] => Some status
  | Some (arg :: rest) => find_status status (arg :: rest)
  end.

(** [description[:50] + "..." if len(description) > 50 else description] *)
Definition desc_preview (description : string) : string :=
  if decide (len description > 50)
  then String.substring 0 50 description +:+ "..."
  else description.

(** One call of [update.message.reply_text]: the text, and the keyboard
    when one is attached. *)
Record reply (M : Type) : Type := Reply {
  sent_text : string;
  sent_markup : option M
}.
Arguments Reply {M} _ _.
Arguments sent_text {M} _.
Arguments sent_markup {M} _.

(** The sending loop: the calls it makes, in order.
    [is_last_chunk = (i == total_chunks - 1)]. *)
Definition send_chunks {M : Type} (reply_markup : M)
    (message_chunks : list string) : list (reply M) :=
  let total_chunks := Z.of_nat (length message_chunks) in
  imap (λ (i : nat) (chunk : string),
          let is_last_chunk := bool_decide (Z.of_nat i = total_chunks - 1) in
          {| sent_text := chunk;
             sent_markup := if is_last_chunk then Some reply_markup
                            else None |})
       message_chunks.

(** [split_message_by_lines(message)]: the chunk size defaults to 4096. *)
Definition default_chunk_size : Z := 4096.

Definition send_message {M : Type} (reply_markup : M) (message : string)
  : list (reply M) :=
  send_chunks reply_markup (split_message_by_lines message default_chunk_size).

(** The characters of the chunks, one more for each chunk. *)
Definition total_weight (ls : list string) : Z :=
  foldr (λ l acc, len l + 1 + acc) 0 ls.

(** ** Sanity checks on concrete inputs *)

Example split_short : split_message_by_lines "short" 10 = ["short"].
Proof. reflexivity. Qed.

Example split_one_long_line :
  split_message_by_lines "0123456789abcde" 10 = ["0123456789abcde"].
Proof. vm_compute. reflexivity. Qed.

Example split_empty : split_message_by_lines "" 10 = [""].
Proof. reflexivity. Qed.

Example split_blank_line_between_chunks :
  split_message_by_lines ("abcd" +:+ NL +:+ NL +:+ "ef") 4 = ["abcd"; "ef"].
Proof. reflexivity. Qed.

Example split_blank_line_inside_chunk :
  split_message_by_lines ("ab" +:+ NL +:+ NL +:+ "ef" +:+ NL +:+ "ghi") 6
  = ["ab" +:+ NL +:+ NL +:+ "ef"; "ghi"].
Proof. reflexivity. Qed.

Example split_newline_trailing :
  split_newline ("a" +:+ NL +:+ NL +:+ "bc" +:+ NL) = ["a"; ""; "bc"; ""].
Proof. reflexivity. Qed.

(** ** Basic facts about strings *)

Section strings.
Implicit Types s t u : string.

Lemma string_app_cons c s t : String c s +:+ t = String c (s +:+ t).
Proof. reflexivity. Qed.

Lemma string_app_nil_l s : "" +:+ s = s.
Proof. reflexivity. Qed.

Lemma string_app_nil_r s : s +:+ "" = s.
Proof.
  induction s as [|c s IH]; [done|]. by rewrite string_app_cons, IH.
Qed.

Lemma string_app_assoc s t u : (s +:+ t) +:+ u = s +:+ t +:+ u.
Proof.
  induction s as [|c s IH]; [done|]. by rewrite !string_app_cons, IH.
Qed.

Lemma len_cons c s : len (String c s) = len s + 1.
Proof. unfold len. cbn [String.length]. lia. Qed.

Lemma len_app s t : len (s +:+ t) = len s + len t.
Proof.
  induction s as [|c s IH]; [done|].
  rewrite string_app_cons, !len_cons, IH. lia.
Qed.

Lemma len_nonneg s : 0 ≤ len s.
Proof. unfold len. lia. Qed.

Lemma len_NL : len NL = 1.
Proof. reflexivity. Qed.

Lemma len_empty_iff s : len s = 0 ↔ s = "".
Proof.
  destruct s as [|c s]; [done|]. rewrite len_cons.
  pose proof (len_nonneg s). split; [lia|done].
Qed.

Lemma string_app_NL_nonempty s t : s +:+ NL +:+ t ≠ "".
Proof. by destruct s. Qed.

End strings.

(** ** Splitting on newlines and joining back *)

Lemma split_newline_nonnil s : split_newline s ≠ [].
Proof.
  destruct s as [|c s]; simpl; [done|].
  case_decide; [done|]. by destruct (split_newline s).
Qed.

Lemma split_newline_free s : newline_free s → split_newline s = [s].
Proof.
  induction s as [|c s IH]; simpl; [done|].
  intros [Hc Hs]. rewrite decide_False by done. by rewrite IH.
Qed.

Lemma split_newline_lines_free s : Forall newline_free (split_newline s).
Proof.
  induction s as [|c s IH]; simpl.
  - by repeat constructor.
  - case_decide.
    + by constructor.
    + destruct (split_newline s) as [|l ls]; [by repeat constructor|].
      inversion_clear IH. by repeat constructor.
Qed.

Lemma NL_app s : NL +:+ s = String newline s.
Proof. reflexivity. Qed.

Lemma split_newline_app_NL s t :
  split_newline (s +:+ NL +:+ t) = split_newline s ++ split_newline t.
Proof.
  induction s as [|c s IH].
  - by rewrite string_app_nil_l, NL_app.
  - rewrite string_app_cons. simpl. rewrite IH. case_decide; [done|].
    pose proof (split_newline_nonnil s).
    by destruct (split_newline s).
Qed.

Lemma join_newline_cons l l' ls :
  join_newline (l :: l' :: ls) = l +:+ NL +:+ join_newline (l' :: ls).
Proof. reflexivity. Qed.

Lemma join_newline_cons_nonnil l ls :
  ls ≠ [] → join_newline (l :: ls) = l +:+ NL +:+ join_newline ls.
Proof. by destruct ls. Qed.

Lemma join_newline_String c l ls :
  join_newline (String c l :: ls) = String c (join_newline (l :: ls)).
Proof. by destruct ls. Qed.

Lemma join_split_newline s : join_newline (split_newline s) = s.
Proof.
  induction s as [|c s IH]; simpl; [done|].
  pose proof (split_newline_nonnil s) as Hnn.
  case_decide as Hc.
  - subst c. by rewrite join_newline_cons_nonnil, IH.
  - destruct (split_newline s) as [|l ls]; [done|].
    by rewrite join_newline_String, IH.
Qed.

Lemma split_newline_len s l : l ∈ split_newline s → len l ≤ len s.
Proof.
  revert l. induction s as [|c s IH]; simpl; intros l.
  - by intros ->%list_elem_of_singleton.
  - rewrite len_cons. pose proof (len_nonneg s). case_decide.
    + intros [->|Hl]%elem_of_cons; [change (len "") with 0; lia|].
      specialize (IH l Hl). lia.
    + pose proof (split_newline_nonnil s).
      destruct (split_newline s) as [|l0 ls]; [done|].
      intros [->|Hl]%elem_of_cons.
      * rewrite len_cons. specialize (IH l0 (list_elem_of_here _ _)). lia.
      * specialize (IH l (list_elem_of_further _ _ _ Hl)). lia.
Qed.

Lemma first_line_app_NL s t : first_line (s +:+ NL +:+ t) = first_line s.
Proof.
  unfold first_line. rewrite split_newline_app_NL.
  pose proof (split_newline_nonnil s). by destruct (split_newline s).
Qed.

Lemma first_line_free s : newline_free s → first_line s = s.
Proof. intros Hs. unfold first_line. by rewrite split_newline_free. Qed.

(** ** The loop, one line at a time *)

Lemma final_chunks_prefix c0 cur :
  final_chunks (LoopState c0 cur) = c0 ++ final_chunks (LoopState [] cur).
Proof. unfold final_chunks; simpl. case_decide; by rewrite ?app_nil_r. Qed.

Lemma run_loop_cons chunk_size st l ls :
  run_loop chunk_size st (l :: ls)
  = run_loop chunk_size (loop_body chunk_size st l) ls.
Proof. reflexivity. Qed.

Lemma loop_body_prefix chunk_size c0 cur l :
  loop_body chunk_size (LoopState c0 cur) l
  = LoopState (c0 ++ chunks (loop_body chunk_size (LoopState [] cur) l))
              (current_chunk (loop_body chunk_size (LoopState [] cur) l)).
Proof.
  unfold loop_body; simpl. repeat case_decide; simpl; by rewrite ?app_nil_r.
Qed.

(** Chunks already emitted are never touched again. *)
Lemma run_loop_prefix chunk_size c0 cur ls :
  final_chunks (run_loop chunk_size (LoopState c0 cur) ls)
  = c0 ++ chunks_from chunk_size cur ls.
Proof.
  unfold chunks_from. revert c0 cur.
  induction ls as [|l ls IH]; intros c0 cur.
  - apply final_chunks_prefix.
  - rewrite !run_loop_cons, loop_body_prefix.
    destruct (loop_body chunk_size (LoopState [] cur) l) as [c1 cur1]; simpl.
    by rewrite IH, (IH c1), app_assoc.
Qed.

Lemma chunks_from_nil chunk_size cur :
  chunks_from chunk_size cur [] = if decide (cur ≠ "") then [cur] else [].
Proof. reflexivity. Qed.

Lemma chunks_from_cons chunk_size cur l ls :
  chunks_from chunk_size cur (l :: ls) =
    if decide (len cur + len l + 1 > chunk_size) then
      if decide (cur ≠ "") then cur :: chunks_from chunk_size l ls
      else chunks_from chunk_size l ls
    else
      if decide (cur = "") then chunks_from chunk_size l ls
      else chunks_from chunk_size (cur +:+ NL +:+ l) ls.
Proof.
  unfold chunks_from at 1. rewrite run_loop_cons.
  unfold loop_body; simpl.
  repeat case_decide; by rewrite run_loop_prefix.
Qed.

Lemma split_message_by_lines_unfold text chunk_size :
  split_message_by_lines text chunk_size =
    if decide (len text ≤ chunk_size) then [text]
    else chunks_from chunk_size "" (split_newline text).
Proof. reflexivity. Qed.

(** Case analysis on one iteration of the loop. *)
Ltac loop_cases :=
  rewrite chunks_from_cons; repeat case_decide; try done.

(** ** Emitted chunks are not empty *)

Lemma chunks_from_nonempty chunk_size ls cur c :
  c ∈ chunks_from chunk_size cur ls → c ≠ "".
Proof.
  revert cur. induction ls as [|l ls IH]; intros cur.
  - rewrite chunks_from_nil. case_decide; [|by intros ?%elem_of_nil].
    by intros ->%list_elem_of_singleton.
  - loop_cases; eauto.
    intros [->|?]%elem_of_cons; eauto.
Qed.

(** ** Sizes of the chunks *)

Lemma chunks_from_fits chunk_size L ls cur c :
  ls ⊆ L →
  fits_or_line chunk_size L cur →
  c ∈ chunks_from chunk_size cur ls →
  fits_or_line chunk_size L c.
Proof.
  revert cur. induction ls as [|l ls IH]; intros cur Hsub Hcur.
  - rewrite chunks_from_nil. case_decide; [|by intros ?%elem_of_nil].
    by intros ->%list_elem_of_singleton.
  - assert (ls ⊆ L) as Hls by set_solver.
    assert (fits_or_line chunk_size L l) as Hl.
    { right; right. set_solver. }
    loop_cases; eauto.
    + intros [->|?]%elem_of_cons; eauto.
    + apply IH; [done|]. right; left.
      rewrite !len_app, len_NL. lia.
Qed.

(** ** Texts made of newlines only *)

Lemma split_newline_newlines n :
  split_newline (newlines n) = replicate (S n) "".
Proof.
  induction n as [|n IH]; simpl; [done|]. by rewrite IH.
Qed.

Lemma chunks_from_blank chunk_size k :
  chunks_from chunk_size "" (replicate k "") = [].
Proof.
  induction k as [|k IH]; [done|].
  cbn [replicate]. by loop_cases.
Qed.

Lemma only_newlines_eq s : only_newlines s → s = newlines (String.length s).
Proof.
  induction s as [|c s IH]; [done|]. intros [-> Hs].
  cbn [String.length newlines]. by rewrite <-IH.
Qed.

(** ** Lines of the chunks against lines of the input *)

Lemma chunk_lines_cons c cs :
  chunk_lines (c :: cs) = split_newline c ++ chunk_lines cs.
Proof. reflexivity. Qed.

Lemma held_lines_nonempty cur : cur ≠ "" → held_lines cur = split_newline cur.
Proof. intros Hcur. unfold held_lines. by rewrite decide_False. Qed.

Lemma held_lines_append cur l :
  cur ≠ "" → newline_free l →
  held_lines (cur +:+ NL +:+ l) = held_lines cur ++ [l].
Proof.
  intros Hcur Hl.
  rewrite !held_lines_nonempty by (done || apply string_app_NL_nonempty).
  by rewrite split_newline_app_NL, (split_newline_free l).
Qed.

(** A line that opens a chunk: kept, unless it is empty. *)
Lemma greedy_chunking_open chunk_size l cs ls :
  newline_free l →
  greedy_chunking chunk_size cs (held_lines l ++ ls) →
  greedy_chunking chunk_size cs (l :: ls).
Proof.
  intros Hl. unfold held_lines. case_decide as Hblank.
  - subst l. apply greedy_blank.
  - by rewrite split_newline_free.
Qed.

(** The loop loses empty lines only, and only where no chunk is open; a
    chunk is closed only by a line that does not fit. *)
Lemma chunks_from_greedy chunk_size ls cur :
  Forall newline_free ls →
  greedy_chunking chunk_size
    (chunks_from chunk_size cur ls) (held_lines cur ++ ls).
Proof.
  revert cur. induction ls as [|l ls IH]; intros cur Hls.
  - rewrite chunks_from_nil, app_nil_r. unfold held_lines.
    repeat case_decide; try done; try constructor.
    rewrite <-(app_nil_r (split_newline cur)).
    by repeat constructor.
  - inversion_clear Hls as [|?? Hl Hls'].
    assert (greedy_chunking chunk_size (chunks_from chunk_size l ls) (l :: ls))
      as Hnext.
    { by apply greedy_chunking_open, IH. }
    loop_cases.
    + rewrite held_lines_nonempty by done.
      constructor; [|done]. intros l' [= <-]. lia.
    + unfold held_lines. rewrite decide_True; [done|].
      destruct (decide (cur = "")); tauto.
    + by subst cur.
    + replace (held_lines cur ++ l :: ls)
        with (held_lines (cur +:+ NL +:+ l) ++ ls); [by apply IH|].
      by rewrite held_lines_append, <-app_assoc.
Qed.

Lemma greedy_chunking_padded chunk_size cs ls :
  greedy_chunking chunk_size cs ls → blank_padded cs ls.
Proof. induction 1; by constructor. Qed.

Lemma blank_padded_sublist cs ls :
  blank_padded cs ls → chunk_lines cs `sublist_of` ls.
Proof.
  induction 1 as [|cs ls _ IH|c cs ls _ IH].
  - done.
  - by apply sublist_cons.
  - rewrite chunk_lines_cons. by apply sublist_app.
Qed.

Lemma blank_padded_nonblank cs ls :
  blank_padded cs ls →
  filter nonblank (chunk_lines cs) = filter nonblank ls.
Proof.
  induction 1 as [|cs ls _ IH|c cs ls _ IH].
  - done.
  - by rewrite filter_cons_False by (by intros []).
  - by rewrite chunk_lines_cons, !filter_app, IH.
Qed.

Lemma blank_padded_exact cs ls :
  blank_padded cs ls → Forall nonblank ls → chunk_lines cs = ls.
Proof.
  induction 1 as [|cs ls _ IH|c cs ls _ IH]; intros Hnb.
  - done.
  - by inversion_clear Hnb.
  - apply Forall_app in Hnb as [_ Hnb].
    by rewrite chunk_lines_cons, IH.
Qed.

(** The result of the function against the lines of its argument. *)
Lemma split_greedy text chunk_size :
  greedy_chunking chunk_size
    (split_message_by_lines text chunk_size) (split_newline text).
Proof.
  rewrite split_message_by_lines_unfold. case_decide.
  - rewrite <-(app_nil_r (split_newline text)). by repeat constructor.
  - apply (chunks_from_greedy chunk_size _ ""), split_newline_lines_free.
Qed.

Lemma split_padded text chunk_size :
  blank_padded (split_message_by_lines text chunk_size) (split_newline text).
Proof. eapply greedy_chunking_padded, split_greedy. Qed.

(** ** Lines longer than the chunk size *)

Lemma occurrences_cons l x xs :
  occurrences l (x :: xs)
  = ((if decide (x = l) then 1 else 0) + occurrences l xs)%nat.
Proof.
  unfold occurrences. cbn [count_occ].
  destruct (String.eq_dec x l); [by rewrite decide_True|by rewrite decide_False].
Qed.

Lemma occurrences_pos l xs : (0 < occurrences l xs)%nat ↔ l ∈ xs.
Proof.
  unfold occurrences.
  rewrite list_elem_of_In, (count_occ_In String.eq_dec). done.
Qed.

(** An oversized line is emitted once for each time it occurs. *)
Lemma chunks_from_oversized chunk_size l ls cur :
  0 ≤ chunk_size → chunk_size < len l →
  occurrences l (chunks_from chunk_size cur ls)
  = ((if decide (cur = l) then 1 else 0) + occurrences l ls)%nat.
Proof.
  intros Hpos Hl.
  assert (l ≠ "") as Hne by (intros ->; change (len "") with 0 in Hl; lia).
  revert cur. induction ls as [|l0 ls IH]; intros cur.
  - rewrite chunks_from_nil. case_decide as Hcur.
    + by rewrite occurrences_cons.
    + assert (cur = "") as -> by (destruct (decide (cur = "")); tauto).
      by rewrite decide_False.
  - pose proof (len_nonneg cur). pose proof (len_nonneg l0).
    rewrite chunks_from_cons, (occurrences_cons l l0 ls).
    repeat case_decide; rewrite ?occurrences_cons, ?IH; repeat case_decide;
      simplify_eq; rewrite ?len_app, ?len_NL in *; try done; lia.
Qed.

Lemma oversized_alone_line chunk_size l :
  newline_free l → oversized_alone chunk_size l.
Proof.
  intros Hl l'. rewrite split_newline_free by done.
  by intros ->%list_elem_of_singleton.
Qed.

Lemma oversized_alone_fits chunk_size c :
  len c ≤ chunk_size → oversized_alone chunk_size c.
Proof.
  intros Hc l Hl%split_newline_len. lia.
Qed.

Lemma chunks_from_alone chunk_size ls cur c :
  Forall newline_free ls →
  oversized_alone chunk_size cur →
  c ∈ chunks_from chunk_size cur ls →
  oversized_alone chunk_size c.
Proof.
  revert cur. induction ls as [|l ls IH]; intros cur Hls Hcur.
  - rewrite chunks_from_nil. case_decide; [|by intros ?%elem_of_nil].
    by intros ->%list_elem_of_singleton.
  - inversion_clear Hls as [|?? Hl Hls'].
    pose proof (oversized_alone_line chunk_size l Hl).
    loop_cases; eauto.
    + intros [->|?]%elem_of_cons; eauto.
    + apply IH; [done|]. apply oversized_alone_fits.
      rewrite !len_app, len_NL. lia.
Qed.

(** ** The source against the reference algorithm *)

Lemma reference_step_eq limit st line :
  Reference.step limit st line = loop_body limit st line.
Proof.
  destruct st as [cs cur].
  unfold Reference.step, Reference.prospective_length, loop_body; simpl.
  repeat case_decide; simplify_eq; try done; try tauto; try lia.
Qed.

Lemma reference_loop_eq limit lines st :
  foldl (Reference.step limit) st lines = run_loop limit st lines.
Proof.
  revert st. induction lines as [|l ls IH]; intros st; [done|].
  simpl. rewrite reference_step_eq. apply IH.
Qed.

Lemma reference_general_path_eq limit lines :
  Reference.general_path limit lines
  = final_chunks (run_loop limit initial_state lines).
Proof.
  unfold Reference.general_path, final_chunks.
  by rewrite reference_loop_eq.
Qed.

(** ** Greedy filling *)

Lemma maximal_chunks_cons chunk_size c rest :
  (∀ c', head rest = Some c' →
         chunk_size < len c + 1 + len (first_line c')) →
  maximal_chunks chunk_size rest →
  maximal_chunks chunk_size (c :: rest).
Proof.
  intros Hhd Hrest [|i] c1 c2; simpl.
  - intros [= <-] Hc2. apply Hhd. by rewrite head_lookup.
  - apply Hrest.
Qed.

(** The first chunk emitted from a non-empty accumulator starts with it. *)
Lemma chunks_from_head chunk_size ls cur :
  cur ≠ "" →
  ∃ c rest, chunks_from chunk_size cur ls = c :: rest
            ∧ first_line c = first_line cur.
Proof.
  revert cur. induction ls as [|l ls IH]; intros cur Hcur.
  - rewrite chunks_from_nil, decide_True by done. eauto.
  - loop_cases; eauto.
    destruct (IH (cur +:+ NL +:+ l)) as (c & rest & -> & Hc).
    { apply string_app_NL_nonempty. }
    exists c, rest. by rewrite Hc, first_line_app_NL.
Qed.

Lemma chunks_from_maximal chunk_size ls cur :
  Forall newline_free ls →
  maximal_chunks chunk_size (chunks_from chunk_size cur ls).
Proof.
  revert cur. induction ls as [|l ls IH]; intros cur Hls.
  - rewrite chunks_from_nil. case_decide; by intros [|[|i]] ??.
  - inversion_clear Hls as [|?? Hl Hls'].
    loop_cases; eauto.
    apply maximal_chunks_cons; [|by eauto].
    intros c' Hc'. pose proof (len_nonneg (first_line c')).
    destruct (decide (l = "")) as [->|Hne].
    + change (len "") with 0 in *. lia.
    + destruct (chunks_from_head chunk_size ls l Hne) as (c & rest & Heq & Hc).
      rewrite Heq in Hc'. simplify_eq/=.
      rewrite Hc, first_line_free by done. lia.
Qed.

(** ** Chunks are pieces of the text *)

Lemma substring_of_refl c : substring_of c c.
Proof. exists "", "". by rewrite string_app_nil_l, string_app_nil_r. Qed.

Lemma substring_of_prefix c s : substring_of c (c +:+ s).
Proof. by exists "", s. Qed.

Lemma substring_of_prepend s c t : substring_of c t → substring_of c (s +:+ t).
Proof.
  intros (p & q & ->). exists (s +:+ p), q. by rewrite string_app_assoc.
Qed.

Lemma join_newline_merge cur l ls :
  join_newline ((cur +:+ NL +:+ l) :: ls) = join_newline (cur :: l :: ls).
Proof.
  destruct ls as [|l' ls]; [done|].
  by rewrite !join_newline_cons, !string_app_assoc.
Qed.

Lemma chunks_from_substring chunk_size ls :
  (∀ cur c, cur ≠ "" → c ∈ chunks_from chunk_size cur ls →
            substring_of c (join_newline (cur :: ls)))
  ∧ (∀ c, c ∈ chunks_from chunk_size "" ls →
          substring_of c (join_newline ls)).
Proof.
  induction ls as [|l ls [IHA IHB]].
  - split.
    + intros cur c Hcur. rewrite chunks_from_nil, decide_True by done.
      intros ->%list_elem_of_singleton. apply substring_of_refl.
    + intros c. rewrite chunks_from_nil. by intros ?%elem_of_nil.
  - assert (∀ c, c ∈ chunks_from chunk_size l ls →
                 substring_of c (join_newline (l :: ls))) as Hnext.
    { intros c Hc. destruct (decide (l = "")) as [->|Hne]; [|by apply IHA].
      destruct ls as [|l' ls]; [by apply elem_of_nil in Hc|].
      rewrite join_newline_cons, string_app_nil_l.
      by apply (substring_of_prepend NL), IHB. }
    split.
    + intros cur c Hcur. rewrite join_newline_cons. loop_cases.
      * intros [->|Hc]%elem_of_cons; [apply substring_of_prefix|].
        by apply (substring_of_prepend cur), (substring_of_prepend NL), Hnext.
      * intros Hc. rewrite <-join_newline_cons, <-join_newline_merge.
        apply IHA; [apply string_app_NL_nonempty|done].
    + intros c. loop_cases; apply Hnext.
Qed.

(** ** The program over a store against the function *)

Lemma same_outside_refl σ : same_outside σ σ.
Proof. by intros x _. Qed.

Lemma same_outside_trans σ1 σ2 σ3 :
  same_outside σ1 σ2 → same_outside σ2 σ3 → same_outside σ1 σ3.
Proof. intros H12 H23 x Hx. by rewrite H23, H12. Qed.

Lemma same_outside_insert σ x v :
  x ∈ local_names → same_outside σ (<[x := v]> σ).
Proof.
  intros Hx y Hy. apply lookup_insert_ne. by intros ->.
Qed.


Lemma bind_ret {A B} (a : A) (k : A → prog B) σ : bind (ret a) k σ = k a σ.
Proof. reflexivity. Qed.

Lemma bind_assign {B} x v (k : unit → prog B) σ :
  bind (assign x v) k σ = k tt (<[x := v]> σ).
Proof. reflexivity. Qed.

Lemma bind_bind {A B C} (m : prog A) (k1 : A → prog B) (k2 : B → prog C) σ :
  bind (bind m k1) k2 σ = bind m (λ a, bind (k1 a) k2) σ.
Proof. unfold bind. by destruct (m σ) as [[a σ']|]. Qed.

Lemma load_str_eq x s σ :
  σ !! x = Some (VStr s) → load_str x σ = Some (s, σ).
Proof. unfold load_str. by intros ->. Qed.

Lemma load_int_eq x n σ :
  σ !! x = Some (VInt n) → load_int x σ = Some (n, σ).
Proof. unfold load_int. by intros ->. Qed.

Lemma load_list_eq x l σ :
  σ !! x = Some (VList l) → load_list x σ = Some (l, σ).
Proof. unfold load_list. by intros ->. Qed.

Lemma bind_load_str {B} x s (k : string → prog B) σ :
  σ !! x = Some (VStr s) → bind (load_str x) k σ = k s σ.
Proof. intros H. unfold bind. by rewrite (load_str_eq x s). Qed.

Lemma bind_load_int {B} x n (k : Z → prog B) σ :
  σ !! x = Some (VInt n) → bind (load_int x) k σ = k n σ.
Proof. intros H. unfold bind. by rewrite (load_int_eq x n). Qed.

Lemma bind_load_list {B} x l (k : list string → prog B) σ :
  σ !! x = Some (VList l) → bind (load_list x) k σ = k l σ.
Proof. intros H. unfold bind. by rewrite (load_list_eq x l). Qed.

Ltac lookup_now :=
  repeat (rewrite lookup_insert_ne by done);
  first [apply lookup_insert_eq | eassumption].

Ltac run_statement :=
  first
    [ rewrite bind_bind
    | rewrite bind_ret
    | rewrite bind_assign
    | erewrite bind_load_str by lookup_now
    | erewrite bind_load_int by lookup_now
    | erewrite bind_load_list by lookup_now
    | erewrite load_str_eq by lookup_now
    | erewrite load_int_eq by lookup_now
    | erewrite load_list_eq by lookup_now ].

Lemma append_current_chunk_run {B} c0 cur (k : unit → prog B) σ :
  σ !! "chunks" = Some (VList c0) →
  σ !! "current_chunk" = Some (VStr cur) →
  bind append_current_chunk k σ
  = k tt (<["chunks" := VList (c0 ++ [cur])]> σ).
Proof.
  intros Hc Hcur. unfold append_current_chunk.
  by repeat run_statement.
Qed.

Lemma same_outside_locals σ σ' :
  (∀ x, x ≠ "text" → x ≠ "chunk_size" → x ≠ "chunks" →
        x ≠ "current_chunk" → x ≠ "lines" → x ≠ "line" →
        σ' !! x = σ !! x) →
  same_outside σ σ'.
Proof.
  intros H x Hx. unfold local_names in Hx.
  rewrite !not_elem_of_cons in Hx. destruct_and!. by apply H.
Qed.

Lemma loop_statement_spec chunk_size st item σ :
  store_holds σ st chunk_size →
  ∃ σ', loop_statement item σ = Some (tt, σ')
        ∧ store_holds σ' (loop_body chunk_size st item) chunk_size
        ∧ same_outside σ σ'.
Proof.
  destruct st as [c0 cur]. intros (Hc & Hcur & Hcs). simpl in *.
  unfold loop_statement, loop_body. simpl.
  do 4 run_statement.
  case_decide.
  - run_statement. run_statement. case_decide.
    + erewrite (append_current_chunk_run c0 cur) by lookup_now.
      run_statement. unfold assign.
      eexists; split; [reflexivity|]. split.
      * unfold store_holds; simpl. by simplify_map_eq.
      * apply same_outside_locals. intros. by simplify_map_eq.
    + do 2 run_statement. unfold assign.
      eexists; split; [reflexivity|]. split.
      * unfold store_holds; simpl. by simplify_map_eq.
      * apply same_outside_locals. intros. by simplify_map_eq.
  - run_statement. case_decide.
    + run_statement. unfold assign.
      eexists; split; [reflexivity|]. split.
      * unfold store_holds; simpl. by simplify_map_eq.
      * apply same_outside_locals. intros. by simplify_map_eq.
    + do 2 run_statement. unfold assign.
      eexists; split; [reflexivity|]. split.
      * unfold store_holds; simpl. by simplify_map_eq.
      * apply same_outside_locals. intros. by simplify_map_eq.
Qed.

Lemma run_loop_in_store chunk_size lines st σ :
  store_holds σ st chunk_size →
  ∃ σ', for_each lines loop_statement σ = Some (tt, σ')
        ∧ store_holds σ' (run_loop chunk_size st lines) chunk_size
        ∧ same_outside σ σ'.
Proof.
  revert st σ. induction lines as [|line lines IH]; intros st σ Hσ.
  - exists σ. split_and!; [done|done|apply same_outside_refl].
  - destruct (loop_statement_spec chunk_size st line σ Hσ)
      as (σ1 & Hrun1 & Hσ1 & Hout1).
    destruct (IH _ σ1 Hσ1) as (σ2 & Hrun2 & Hσ2 & Hout2).
    exists σ2. split_and!.
    + cbn [for_each]. unfold bind. by rewrite Hrun1.
    + by rewrite run_loop_cons.
    + by eapply same_outside_trans.
Qed.

Lemma call_returns_function_value σ text chunk_size :
  ∃ σ', call_split_message_by_lines σ text chunk_size
        = Some (split_message_by_lines text chunk_size, σ')
        ∧ same_outside σ σ'.
Proof.
  unfold call_split_message_by_lines, split_message_by_lines_body,
    split_message_by_lines.
  do 2 run_statement. case_decide.
  - eexists; split; [reflexivity|].
    apply same_outside_locals. intros. by simplify_map_eq.
  - do 5 run_statement.
    set (σ0 := <["lines" := _]> _).
    destruct (run_loop_in_store chunk_size (split_newline text) initial_state σ0)
      as (σ1 & Hrun & (Hc & Hcur & Hcs) & Hout).
    { unfold store_holds, σ0; simpl. by simplify_map_eq. }
    unfold bind at 1. rewrite Hrun.
    rewrite bind_bind. erewrite bind_load_str by eassumption.
    assert (same_outside σ σ0) as Hout0.
    { apply same_outside_locals. intros. unfold σ0. by simplify_map_eq. }
    unfold final_chunks. case_decide.
    + erewrite append_current_chunk_run by eassumption.
      run_statement. case_decide; [|done].
      eexists; split; [reflexivity|].
      eapply same_outside_trans; [done|].
      eapply same_outside_trans; [done|].
      by apply same_outside_insert; set_solver.
    + run_statement. run_statement. case_decide; [done|].
      eexists; split; [reflexivity|].
      by eapply same_outside_trans.
Qed.

(** In this reading a name that the program did not assign does show in
    the result. *)
Example stale_name_is_observable :
  fst <$> load_str "current_chunk" {["current_chunk" := VStr "a"]}
  ≠ fst <$> load_str "current_chunk" {["current_chunk" := VStr "b"]}.
Proof. by vm_compute. Qed.

(** * The properties of the specification *)

(** C1 (as amended): for every text and every positive chunk size, the
    lines of the text are the lines of the returned chunks, read in order,
    with empty lines possibly added before the first chunk, between two
    chunks and after the last one.  So the lines of the chunks are a
    subsequence of the lines of the text that keeps every non-empty line
    (same content, same order, nothing repeated), and when the text is not
    longer than the chunk size, or none of its lines is empty, they are
    exactly the lines of the text. *)
Theorem lines_preserved_up_to_blank text chunk_size :
  0 < chunk_size →
  blank_padded (split_message_by_lines text chunk_size) (split_newline text)
  ∧ chunk_lines (split_message_by_lines text chunk_size)
      `sublist_of` split_newline text
  ∧ filter nonblank (chunk_lines (split_message_by_lines text chunk_size))
    = filter nonblank (split_newline text)
  ∧ (len text ≤ chunk_size ∨ Forall nonblank (split_newline text) →
     chunk_lines (split_message_by_lines text chunk_size)
     = split_newline text).
Proof.
  intros _. pose proof (split_padded text chunk_size) as Hpad.
  split_and!.
  - done.
  - by apply blank_padded_sublist.
  - by apply blank_padded_nonblank.
  - intros [Hlen|Hnb]; [|by apply blank_padded_exact].
    rewrite split_message_by_lines_unfold, decide_True by done.
    unfold chunk_lines; simpl. by rewrite app_nil_r.
Qed.

Lemma lines_preserved_up_to_blank_witness :
  0 < 4
  ∧ Forall nonblank (split_newline ("ab" +:+ NL +:+ "cd" +:+ NL +:+ "e"))
  ∧ chunk_lines
      (split_message_by_lines ("ab" +:+ NL +:+ "cd" +:+ NL +:+ "e") 4)
    = split_newline ("ab" +:+ NL +:+ "cd" +:+ NL +:+ "e").
Proof.
  assert (Forall nonblank
            (split_newline ("ab" +:+ NL +:+ "cd" +:+ NL +:+ "e"))) as Hnb.
  { vm_compute. by repeat constructor. }
  split_and!; [lia|done|].
  apply (lines_preserved_up_to_blank ("ab" +:+ NL +:+ "cd" +:+ NL +:+ "e") 4);
    [lia|by right].
Defined.

(** C1 as stated fails: with chunk size 2, the text ["ab\n\ncd"] has the
    three lines ["ab"], [""], ["cd"], and the chunks hold only two. *)
Lemma lines_preserved_counterexample :
  0 < 2
  ∧ split_newline ("ab" +:+ NL +:+ NL +:+ "cd") = ["ab"; ""; "cd"]
  ∧ split_message_by_lines ("ab" +:+ NL +:+ NL +:+ "cd") 2 = ["ab"; "cd"]
  ∧ chunk_lines (split_message_by_lines ("ab" +:+ NL +:+ NL +:+ "cd") 2)
    ≠ split_newline ("ab" +:+ NL +:+ NL +:+ "cd").
Proof. split_and!; [lia|done|done|]. vm_compute. discriminate. Qed.

(** C2: for every text and every positive chunk size, each returned chunk is
    at most [chunk_size] long, unless it is a single line of the text that
    is itself longer than [chunk_size]. *)
Theorem chunk_size_bound text chunk_size c :
  0 < chunk_size →
  c ∈ split_message_by_lines text chunk_size →
  len c ≤ chunk_size ∨ (c ∈ split_newline text ∧ chunk_size < len c).
Proof.
  intros _. rewrite split_message_by_lines_unfold. case_decide as Hlen.
  - intros ->%list_elem_of_singleton. by left.
  - intros Hc.
    pose proof (chunks_from_nonempty _ _ _ _ Hc) as Hne.
    apply (chunks_from_fits chunk_size (split_newline text)) in Hc
      as [?|[?|?]]; [done|by left|..|done|by left].
    destruct (decide (len c ≤ chunk_size)); [by left|right].
    split; [done|lia].
Qed.

Lemma chunk_size_bound_witness :
  0 < 10
  ∧ "0123456789abcde"
      ∈ split_message_by_lines ("ab" +:+ NL +:+ "0123456789abcde") 10
  ∧ (len "0123456789abcde" ≤ 10
     ∨ ("0123456789abcde" ∈ split_newline ("ab" +:+ NL +:+ "0123456789abcde")
        ∧ 10 < len "0123456789abcde")).
Proof.
  assert ("0123456789abcde"
            ∈ split_message_by_lines ("ab" +:+ NL +:+ "0123456789abcde") 10)
    as Hin.
  { vm_compute. apply list_elem_of_further, list_elem_of_here. }
  split_and!; [lia|done|].
  apply (chunk_size_bound ("ab" +:+ NL +:+ "0123456789abcde") 10); [lia|done].
Defined.

(** C3: a text not longer than the chunk size is returned unchanged, as the
    only chunk. *)
Theorem identity_below_limit text chunk_size :
  len text ≤ chunk_size →
  split_message_by_lines text chunk_size = [text].
Proof.
  intros Hlen. rewrite split_message_by_lines_unfold. by rewrite decide_True.
Qed.

Lemma identity_below_limit_witness :
  len ("a" +:+ NL +:+ NL +:+ "b") ≤ 10
  ∧ split_message_by_lines ("a" +:+ NL +:+ NL +:+ "b") 10
    = ["a" +:+ NL +:+ NL +:+ "b"].
Proof.
  assert (len ("a" +:+ NL +:+ NL +:+ "b") ≤ 10) as Hlen.
  { vm_compute. discriminate. }
  split; [done|].
  by apply (identity_below_limit ("a" +:+ NL +:+ NL +:+ "b") 10).
Defined.

(** C4: for every text and every positive chunk size, a line of the text
    longer than the chunk size is returned as a chunk of its own, once for
    each of its occurrences in the text, and any chunk holding it holds no
    other line; that chunk is longer than the chunk size. *)
Theorem oversized_line_alone text chunk_size l :
  0 < chunk_size →
  l ∈ split_newline text →
  chunk_size < len l →
  l ∈ split_message_by_lines text chunk_size
  ∧ occurrences l (split_message_by_lines text chunk_size)
    = occurrences l (split_newline text)
  ∧ (∀ c, c ∈ split_message_by_lines text chunk_size →
          l ∈ split_newline c → c = l ∧ chunk_size < len c).
Proof.
  intros Hpos Hl Hlong. rewrite split_message_by_lines_unfold.
  case_decide as Hlen.
  { apply split_newline_len in Hl. lia. }
  assert (occurrences l (chunks_from chunk_size "" (split_newline text))
          = occurrences l (split_newline text)) as Hocc.
  { rewrite chunks_from_oversized by lia.
    rewrite decide_False; [done|].
    intros <-. change (len "") with 0 in Hlong. lia. }
  split_and!.
  - apply occurrences_pos. rewrite Hocc. by apply occurrences_pos.
  - done.
  - intros c Hc Hlc.
    assert (c = l) as ->; [|done].
    eapply chunks_from_alone; [apply split_newline_lines_free| |done..].
    by apply oversized_alone_line.
Qed.

Lemma oversized_line_alone_witness :
  0 < 10
  ∧ "0123456789abcde" ∈ split_newline ("ab" +:+ NL +:+ "0123456789abcde")
  ∧ 10 < len "0123456789abcde"
  ∧ "0123456789abcde"
      ∈ split_message_by_lines ("ab" +:+ NL +:+ "0123456789abcde") 10.
Proof.
  assert ("0123456789abcde"
            ∈ split_newline ("ab" +:+ NL +:+ "0123456789abcde")) as Hin.
  { vm_compute. apply list_elem_of_further, list_elem_of_here. }
  split_and!; [lia|done|by vm_compute|].
  apply (oversized_line_alone ("ab" +:+ NL +:+ "0123456789abcde") 10);
    [lia|done|by vm_compute].
Defined.

(** C5: for every text and every positive chunk size, a returned chunk is
    the empty string only if the whole text is empty; and the empty text
    yields the one-element result holding the empty string. *)
Theorem no_empty_chunk text chunk_size :
  0 < chunk_size →
  (∀ c, c ∈ split_message_by_lines text chunk_size → c = "" → text = "")
  ∧ split_message_by_lines "" chunk_size = [""].
Proof.
  intros Hpos. split.
  - intros c. rewrite split_message_by_lines_unfold. case_decide.
    + by intros ->%list_elem_of_singleton.
    + by intros ?%chunks_from_nonempty.
  - rewrite split_message_by_lines_unfold. rewrite decide_True; [done|].
    change (len "") with 0. lia.
Qed.

Lemma no_empty_chunk_witness :
  0 < 1 ∧ split_message_by_lines "" 1 = [""].
Proof. split; [lia|]. apply (no_empty_chunk "" 1). lia. Defined.

(** C6: the loop of the source and the reference algorithm of the
    specification are the same function: each step agrees on every state
    and line (the prospective length counts the separator only behind a
    non-empty chunk, a flush happens exactly when the chunk is non-empty and
    the line would not fit, otherwise the line is appended), hence so do the
    general path and the whole splitter.  Consequently chunks are maximal:
    the line of the text that follows a chunk would not have fitted behind
    it, and neither would the line that opens the next chunk. *)
Theorem reference_refinement text limit :
  (∀ st line, Reference.step limit st line = loop_body limit st line)
  ∧ (∀ lines, Reference.general_path limit lines
              = final_chunks (run_loop limit initial_state lines))
  ∧ Reference.split text limit = split_message_by_lines text limit
  ∧ greedy_chunking limit
      (split_message_by_lines text limit) (split_newline text)
  ∧ maximal_chunks limit (split_message_by_lines text limit).
Proof.
  split_and!.
  - apply reference_step_eq.
  - apply reference_general_path_eq.
  - unfold Reference.split, split_message_by_lines.
    by rewrite reference_general_path_eq.
  - apply split_greedy.
  - rewrite split_message_by_lines_unfold. case_decide.
    + by intros [|[|i]] ??.
    + apply chunks_from_maximal, split_newline_lines_free.
Qed.

(** C7 (as amended): with chunk size 10, the text ["line1\nline2\nline3"]
    is returned one line per chunk, since two lines joined by a newline
    take 11 characters. *)
Theorem three_lines_limit_10 :
  split_message_by_lines ("line1" +:+ NL +:+ "line2" +:+ NL +:+ "line3") 10
  = ["line1"; "line2"; "line3"].
Proof. reflexivity. Qed.

(** C7 as stated fails: the first chunk is not ["line1\nline2"], which is
    11 characters long. *)
Lemma three_lines_limit_10_counterexample :
  len ("line1" +:+ NL +:+ "line2") = 11
  ∧ split_message_by_lines ("line1" +:+ NL +:+ "line2" +:+ NL +:+ "line3") 10
    ≠ ["line1" +:+ NL +:+ "line2"; "line3"].
Proof. split; [done|]. vm_compute. discriminate. Qed.

(** C8: the result of a call depends on nothing but its two arguments.
    Started from any two stores, whatever they hold under any name (the
    function's own local names included), two calls on the same text and
    chunk size both return, and return the same chunks, namely the value of
    the function; and a call leaves every name that is not one of its
    parameters or locals as it found it. *)
Theorem split_deterministic (σ1 σ2 : store) text chunk_size :
  ∃ out σ1' σ2',
    call_split_message_by_lines σ1 text chunk_size = Some (out, σ1')
    ∧ call_split_message_by_lines σ2 text chunk_size = Some (out, σ2')
    ∧ out = split_message_by_lines text chunk_size
    ∧ same_outside σ1 σ1'
    ∧ same_outside σ2 σ2'.
Proof.
  destruct (call_returns_function_value σ1 text chunk_size)
    as (σ1' & Hrun1 & Hout1).
  destruct (call_returns_function_value σ2 text chunk_size)
    as (σ2' & Hrun2 & Hout2).
  by exists (split_message_by_lines text chunk_size), σ1', σ2'.
Qed.

(** C9: a text of newline characters only, longer than a chunk size of at
    least 1, yields no chunk at all. *)
Theorem only_newlines_no_chunk text chunk_size :
  only_newlines text →
  1 ≤ chunk_size →
  chunk_size < len text →
  split_message_by_lines text chunk_size = [].
Proof.
  intros Hnl%only_newlines_eq _ Hlen.
  rewrite split_message_by_lines_unfold, decide_False by lia.
  rewrite Hnl, split_newline_newlines. apply chunks_from_blank.
Qed.

Lemma only_newlines_no_chunk_witness :
  only_newlines (NL +:+ NL)
  ∧ 1 ≤ 1
  ∧ 1 < len (NL +:+ NL)
  ∧ split_message_by_lines (NL +:+ NL) 1 = [].
Proof.
  assert (only_newlines (NL +:+ NL)) as Hnl by (by vm_compute).
  split_and!; [done|lia|by vm_compute|].
  apply (only_newlines_no_chunk (NL +:+ NL) 1); [done|lia|by vm_compute].
Defined.

(** C10: for every text and every chunk size of at least 1, each returned
    chunk is a contiguous piece of the text, and the lines of the chunks,
    read in order, form a subsequence of the lines of the text. *)
Theorem chunks_within_text text chunk_size :
  1 ≤ chunk_size →
  (∀ c, c ∈ split_message_by_lines text chunk_size → substring_of c text)
  ∧ chunk_lines (split_message_by_lines text chunk_size)
      `sublist_of` split_newline text.
Proof.
  intros Hpos. split.
  - intros c. rewrite split_message_by_lines_unfold. case_decide.
    + intros ->%list_elem_of_singleton. apply substring_of_refl.
    + intros Hc. rewrite <-(join_split_newline text).
      by apply (chunks_from_substring chunk_size).
  - apply blank_padded_sublist, split_padded.
Qed.

Lemma chunks_within_text_witness :
  1 ≤ 3
  ∧ "cd" ∈ split_message_by_lines ("ab" +:+ NL +:+ "cd") 3
  ∧ substring_of "cd" ("ab" +:+ NL +:+ "cd").
Proof.
  assert ("cd" ∈ split_message_by_lines ("ab" +:+ NL +:+ "cd") 3) as Hin.
  { vm_compute. apply list_elem_of_further, list_elem_of_here. }
  split_and!; [lia|done|].
  by apply (chunks_within_text ("ab" +:+ NL +:+ "cd") 3); [lia|].
Defined.

(** * Further properties of the module *)

(** ** [escape_markdown] *)

Lemma replace_char_app old new s t :
  replace_char old new (s +:+ t)
  = replace_char old new s +:+ replace_char old new t.
Proof.
  induction s as [|c s IH]; [done|].
  rewrite string_app_cons. simpl. case_decide.
  - by rewrite IH, string_app_assoc.
  - by rewrite IH, string_app_cons.
Qed.

Lemma escape_loop_app (cs : list ascii) s t :
  foldl (λ text char,
           replace_char char (String backslash (String char EmptyString)) text)
        (s +:+ t) cs
  = foldl (λ text char,
             replace_char char (String backslash (String char EmptyString))
                          text) s cs
    +:+ foldl (λ text char,
                 replace_char char (String backslash (String char EmptyString))
                              text) t cs.
Proof.
  revert s t. induction cs as [|c cs IH]; intros s t; [done|].
  simpl. by rewrite replace_char_app, IH.
Qed.

Lemma escape_text_app s t :
  escape_text (s +:+ t) = escape_text s +:+ escape_text t.
Proof. apply escape_loop_app. Qed.

(** On a single character, by inspection of all of them. *)
Lemma escape_text_char c :
  escape_text (String c "") = escape_pass (String c "").
Proof.
  destruct c as [[] [] [] [] [] [] [] []]; vm_compute; reflexivity.
Qed.

Lemma escape_pass_cons c s :
  escape_pass (String c s) = escape_pass (String c "") +:+ escape_pass s.
Proof. simpl. by case_decide. Qed.

(** The eighteen replacements do not disturb one another. *)
Lemma escape_text_pass s : escape_text s = escape_pass s.
Proof.
  induction s as [|c s IH]; [done|].
  change (String c s) with (String c "" +:+ s) at 1.
  by rewrite escape_text_app, escape_text_char, IH, <-escape_pass_cons.
Qed.

Lemma backslash_not_special : ¬ is_special backslash.
Proof. intros H. apply (bool_decide_pack _) in H. by vm_compute in H. Qed.

Lemma newline_not_special : ¬ is_special newline.
Proof. intros H. apply (bool_decide_pack _) in H. by vm_compute in H. Qed.

Lemma len_escape_pass s :
  len (escape_pass s) = len s + Z.of_nat (special_count s).
Proof.
  induction s as [|c s IH]; [done|].
  simpl. case_decide; rewrite !len_cons, IH; lia.
Qed.

(** An escaped text does not open with a special character. *)
Lemma escape_pass_head s :
  match escape_pass s with
  | String d _ => ¬ is_special d
  | EmptyString => True
  end.
Proof.
  destruct s as [|c s]; [done|]. simpl. case_decide; [|done].
  apply backslash_not_special.
Qed.

Lemma unescape_escape_pass s : unescape_pass (escape_pass s) = s.
Proof.
  induction s as [|c s IH]; [done|].
  pose proof (escape_pass_head s) as Hhead.
  cbn [escape_pass]. case_decide as Hc.
  - cbn [unescape_pass].
    rewrite (bool_decide_eq_true_2 (backslash = backslash)) by done.
    rewrite (bool_decide_eq_true_2 _ Hc). cbn [andb].
    rewrite bool_decide_eq_false_2.
    + cbn [andb]. by rewrite IH.
    + intros ->. by apply backslash_not_special.
  - cbn [unescape_pass]. rewrite IH.
    destruct (escape_pass s) as [|d s'].
    + by rewrite andb_false_r.
    + by rewrite (bool_decide_eq_false_2 _ Hhead), andb_false_r.
Qed.

Lemma special_count_escape_pass s :
  special_count (escape_pass s) = special_count s.
Proof.
  induction s as [|c s IH]; [done|].
  cbn [escape_pass special_count]. case_decide as Hc.
  - cbn [special_count].
    rewrite (decide_False (P := is_special backslash))
      by apply backslash_not_special.
    by rewrite decide_True, IH.
  - cbn [special_count]. by rewrite decide_False, IH.
Qed.

Lemma special_count_app s t :
  special_count (s +:+ t) = (special_count s + special_count t)%nat.
Proof.
  induction s as [|c s IH]; [done|].
  rewrite string_app_cons. cbn [special_count]. case_decide; lia.
Qed.

Lemma split_newline_cons_other c s :
  c ≠ newline →
  split_newline (String c s)
  = String c (default "" (head (split_newline s))) :: tail (split_newline s).
Proof.
  intros Hc. simpl. rewrite decide_False by done.
  pose proof (split_newline_nonnil s). by destruct (split_newline s).
Qed.

(** Escaping works line by line. *)
Lemma split_newline_escape_pass s :
  split_newline (escape_pass s) = map escape_pass (split_newline s).
Proof.
  induction s as [|c s IH]; [done|].
  pose proof (split_newline_nonnil s) as Hnn.
  destruct (decide (c = newline)) as [->|Hc].
  - cbn [escape_pass].
    rewrite decide_False by apply newline_not_special.
    simpl. by rewrite IH.
  - rewrite (split_newline_cons_other c s Hc).
    cbn [escape_pass]. case_decide.
    + rewrite (split_newline_cons_other backslash) by done.
      rewrite (split_newline_cons_other c (escape_pass s) Hc), IH.
      destruct (split_newline s) as [|l ls]; [done|].
      simpl. by rewrite decide_True.
    + rewrite (split_newline_cons_other c (escape_pass s) Hc), IH.
      destruct (split_newline s) as [|l ls]; [done|].
      simpl. by rewrite decide_False.
Qed.

(** In an escaped text, what stands before a special character. *)
Lemma escape_pass_preceded s p c q :
  escape_pass s = p +:+ String c q →
  is_special c →
  ∃ p', p = p' +:+ String backslash "".
Proof.
  revert p. induction s as [|a s IH]; intros p Heq Hc.
  - by destruct p.
  - pose proof (escape_pass_head s) as Hhead.
    cbn [escape_pass] in Heq. case_decide as Ha.
    + destruct p as [|b p]; [|destruct p as [|b' p]].
      * rewrite string_app_nil_l in Heq. simplify_eq.
        by destruct backslash_not_special.
      * rewrite string_app_cons, string_app_nil_l in Heq. simplify_eq.
        by exists "".
      * rewrite !string_app_cons in Heq. simplify_eq.
        destruct (IH p) as [p' ->]; [done..|].
        by eexists (String _ (String _ p')).
    + destruct p as [|b p].
      * rewrite string_app_nil_l in Heq. by simplify_eq.
      * rewrite string_app_cons in Heq. simplify_eq.
        destruct (IH p) as [p' ->]; [done..|].
        by eexists (String _ p').
Qed.

Lemma special_count_le s : (special_count s ≤ String.length s)%nat.
Proof.
  induction s as [|c s IH]; [done|].
  cbn [special_count String.length]. case_decide; lia.
Qed.

Lemma escape_pass_fixed s : escape_pass s = s ↔ special_count s = 0%nat.
Proof.
  split.
  - intros Heq. pose proof (len_escape_pass s) as Hlen.
    rewrite Heq in Hlen. lia.
  - induction s as [|c s IH]; [done|].
    cbn [special_count escape_pass]. case_decide; [done|].
    intros Hs. by rewrite IH.
Qed.

(** X1: on a [str], the eighteen successive replacements of
    [escape_markdown] amount to one pass over the text that puts a single
    backslash in front of every special character and leaves every other
    character, backslashes included, as it is; an argument that is not a
    [str] gives the empty string. *)
Theorem escape_markdown_one_pass :
  (∀ s, escape_markdown (Str s) = escape_pass s)
  ∧ escape_markdown NotStr = "".
Proof. split; [apply escape_text_pass|done]. Qed.

(** X2: escaping lengthens a text by exactly the number of its special
    characters, so at most doubles it. *)
Theorem escape_markdown_length s :
  len (escape_markdown (Str s)) = len s + Z.of_nat (special_count s)
  ∧ len (escape_markdown (Str s)) ≤ 2 * len s.
Proof.
  cbn [escape_markdown]. rewrite escape_text_pass, len_escape_pass.
  pose proof (special_count_le s). unfold len. lia.
Qed.

(** X3: escaping loses nothing: two texts with the same escaped form are
    the same text. *)
Theorem escape_markdown_injective a b :
  escape_markdown (Str a) = escape_markdown (Str b) → a = b.
Proof.
  cbn [escape_markdown]. rewrite !escape_text_pass. intros Heq.
  by rewrite <-(unescape_escape_pass a), Heq, unescape_escape_pass.
Qed.

Lemma escape_markdown_injective_witness :
  escape_markdown (Str "a_b") = escape_markdown (Str "a_b") ∧ "a_b" = "a_b".
Proof.
  split; [done|]. by apply (escape_markdown_injective "a_b" "a_b").
Defined.

(** X4: escaping neither adds nor removes a newline: the lines of the
    escaped text are the escaped lines of the text. *)
Theorem escape_markdown_lines s :
  split_newline (escape_markdown (Str s))
  = map (λ l, escape_markdown (Str l)) (split_newline s).
Proof.
  cbn [escape_markdown]. rewrite escape_text_pass, split_newline_escape_pass.
  apply map_ext. intros l. by rewrite escape_text_pass.
Qed.

(** X5: escaping a concatenation is concatenating the escaped parts. *)
Theorem escape_markdown_app a b :
  escape_markdown (Str (a +:+ b))
  = escape_markdown (Str a) +:+ escape_markdown (Str b).
Proof. apply escape_text_app. Qed.

(** X6: a text is left unchanged exactly when it has no special character,
    and escaping is not idempotent: escaping an escaped text changes it
    again unless the original had no special character. *)
Theorem escape_markdown_twice s :
  (escape_markdown (Str s) = s ↔ special_count s = 0%nat)
  ∧ (escape_markdown (Str (escape_markdown (Str s))) = escape_markdown (Str s)
     ↔ special_count s = 0%nat).
Proof.
  cbn [escape_markdown]. rewrite !escape_text_pass.
  split; [apply escape_pass_fixed|].
  by rewrite escape_pass_fixed, special_count_escape_pass.
Qed.

(** X7: in the escaped text every special character stands right behind a
    backslash. *)
Theorem escape_markdown_preceded s p c q :
  escape_markdown (Str s) = p +:+ String c q →
  is_special c →
  ∃ p', p = p' +:+ String backslash "".
Proof.
  cbn [escape_markdown]. rewrite escape_text_pass.
  apply escape_pass_preceded.
Qed.

Lemma escape_markdown_preceded_witness :
  escape_markdown (Str "a_b")
  = String "a" (String backslash "") +:+ String "_" "b"
  ∧ is_special "_"
  ∧ ∃ p', String "a" (String backslash "") = p' +:+ String backslash "".
Proof.
  assert (is_special "_") as Hsp.
  { apply (bool_decide_unpack _). by vm_compute. }
  split_and!; [done|done|].
  by apply (escape_markdown_preceded "a_b" _ "_" "b").
Defined.

(** ** [get_status_display] *)

(** X8: a status that is not a key of [STATUS_MAPPING] is displayed as
    itself, and only such a status is; displaying twice changes nothing
    more, as no display name is itself a key. *)
Theorem get_status_display_idempotent status :
  (get_status_display status = status ↔ STATUS_MAPPING !! status = None)
  ∧ get_status_display (get_status_display status)
    = get_status_display status.
Proof.
  destruct (decide (status = "in_progress")) as [->|Hp]; [by split|].
  destruct (decide (status = "completed")) as [->|Hc]; [by split|].
  assert (STATUS_MAPPING !! status = None) as Hnone.
  { unfold STATUS_MAPPING.
    rewrite lookup_insert_ne by done. by apply lookup_singleton_ne. }
  unfold get_status_display. rewrite Hnone. simpl. by rewrite Hnone.
Qed.

(** ** The command arguments *)

Lemma prefix_app p s : String.prefix p s = true → ∃ v, s = p +:+ v.
Proof.
  revert s. induction p as [|a p IH]; intros s; [by exists s|].
  destruct s as [|b s]; simpl; [done|].
  destruct (ascii_dec a b) as [->|]; [|done].
  intros [v ->]%IH. by exists v.
Qed.

Lemma prefix_app_true p v : String.prefix p (p +:+ v) = true.
Proof.
  induction p as [|a p IH]; [by destruct v|].
  rewrite string_app_cons. simpl. by destruct (ascii_dec a a).
Qed.

Lemma split_char_nonnil sep s : split_char sep s ≠ [].
Proof.
  destruct s as [|c s]; simpl; [done|].
  case_decide; [done|]. by destruct (split_char sep s).
Qed.

Lemma split_char_free sep s : char_free sep s → split_char sep s = [s].
Proof.
  induction s as [|c s IH]; simpl; [done|].
  intros [Hc Hs]. by rewrite decide_False, IH.
Qed.

Lemma split_char_app sep s t :
  char_free sep s →
  split_char sep (s +:+ String sep t) = s :: split_char sep t.
Proof.
  induction s as [|c s IH]; intros Hs.
  - rewrite string_app_nil_l. simpl. by rewrite decide_True.
  - destruct Hs as [Hc Hs]. rewrite string_app_cons. simpl.
    by rewrite decide_False, IH.
Qed.

Lemma split_char_status v :
  split_char equals_sign ("status=" +:+ v)
  = "status" :: split_char equals_sign v.
Proof.
  change ("status=" +:+ v) with ("status" +:+ String equals_sign v).
  apply split_char_app. by vm_compute.
Qed.

Lemma find_status_skip status pre args :
  Forall (λ arg, String.prefix "status=" arg = false) pre →
  find_status status (pre ++ args) = find_status status args.
Proof.
  induction 1 as [|arg pre Harg _ IH]; [done|].
  simpl. by rewrite Harg.
Qed.

Lemma find_status_is_Some status args : is_Some (find_status status args).
Proof.
  induction args as [|arg args IH]; [by eexists|].
  simpl. destruct (String.prefix "status=" arg) eqn:Hpre; [|done].
  apply prefix_app in Hpre as [v ->]. rewrite split_char_status.
  pose proof (split_char_nonnil equals_sign v).
  destruct (split_char equals_sign v); [done|by eexists].
Qed.

Lemma parse_status_find args :
  parse_status (Some args) = find_status "in_progress" args.
Proof. by destruct args. Qed.

Example parse_status_second_argument :
  parse_status (Some ["verbose"; "status=completed"; "status=x"])
  = Some "completed".
Proof. reflexivity. Qed.

Example parse_status_empty_value : parse_status (Some ["status="]) = Some "".
Proof. reflexivity. Qed.

(** X9: the argument parsing never raises: whenever an argument starts
    with ["status="], splitting it on ['='] gives at least two pieces, so
    the index 1 is in range. *)
Theorem parse_status_never_fails args : is_Some (parse_status args).
Proof.
  destruct args as [args|]; [|by eexists].
  rewrite parse_status_find. apply find_status_is_Some.
Qed.

(** X10: without arguments, or when no argument starts with ["status="],
    the status is ["in_progress"]. *)
Theorem parse_status_default args :
  Forall (λ arg, String.prefix "status=" arg = false) args →
  parse_status (Some args) = Some "in_progress"
  ∧ parse_status None = Some "in_progress".
Proof.
  intros Hargs. split; [|done].
  rewrite parse_status_find, <-(app_nil_r args).
  by rewrite find_status_skip.
Qed.

Lemma parse_status_default_witness :
  Forall (λ arg, String.prefix "status=" arg = false) ["all"; "Status=done"]
  ∧ parse_status (Some ["all"; "Status=done"]) = Some "in_progress".
Proof.
  assert (Forall (λ arg, String.prefix "status=" arg = false)
            ["all"; "Status=done"]) as Hargs.
  { by repeat constructor. }
  split; [done|].
  by apply (parse_status_default ["all"; "Status=done"]).
Defined.

(** X11: the first argument that starts with ["status="] decides, whatever
    follows it: the status is what stands between that prefix and the next
    ['='] of the argument, or the end of the argument when it has no other
    ['=']. *)
Theorem parse_status_first_match pre v w rest :
  Forall (λ arg, String.prefix "status=" arg = false) pre →
  char_free equals_sign v →
  parse_status (Some (pre ++ ("status=" +:+ v) :: rest)) = Some v
  ∧ parse_status
      (Some (pre ++ ("status=" +:+ v +:+ String equals_sign w) :: rest))
    = Some v.
Proof.
  intros Hpre Hv.
  rewrite !parse_status_find, !find_status_skip by done.
  cbn [find_status]. rewrite !prefix_app_true, !split_char_status.
  by rewrite split_char_free, split_char_app.
Qed.

Lemma parse_status_first_match_witness :
  Forall (λ arg, String.prefix "status=" arg = false) ["x"]
  ∧ char_free equals_sign "completed"
  ∧ parse_status (Some (["x"] ++ "status=completed" :: ["status=later"]))
    = Some "completed".
Proof.
  assert (Forall (λ arg, String.prefix "status=" arg = false) ["x"]) as Hpre.
  { by repeat constructor. }
  assert (char_free equals_sign "completed") as Hv by (by vm_compute).
  split_and!; [done|done|].
  by apply (parse_status_first_match ["x"] "completed" "" ["status=later"]).
Defined.

(** ** The description preview *)

Lemma substring_0_length n s :
  String.length (String.substring 0 n s) = min n (String.length s).
Proof.
  revert s. induction n as [|n IH]; intros [|c s]; simpl; try done.
  by rewrite IH.
Qed.

Lemma substring_0_prefix n s :
  ∃ rest, s = String.substring 0 n s +:+ rest.
Proof.
  revert s. induction n as [|n IH]; intros [|c s]; simpl.
  - by exists "".
  - by exists (String c s).
  - by exists "".
  - destruct (IH s) as [rest Hrest]. exists rest.
    by rewrite string_app_cons, <-Hrest.
Qed.

(** X12: the preview of a description is never longer than 53 characters
    (106 once escaped); a description of at most 50 characters is its own
    preview, and a longer one is cut to its first 50 characters followed by
    three dots. *)
Theorem desc_preview_bounded description :
  len (desc_preview description) ≤ 53
  ∧ len (escape_markdown (Str (desc_preview description))) ≤ 106
  ∧ (len description ≤ 50 → desc_preview description = description)
  ∧ (50 < len description →
     ∃ kept dropped, description = kept +:+ dropped
                     ∧ len kept = 50
                     ∧ desc_preview description = kept +:+ "...").
Proof.
  assert (len (desc_preview description) ≤ 53) as Hlen.
  { unfold desc_preview. case_decide; [|lia].
    rewrite len_app. unfold len. rewrite substring_0_length.
    simpl String.length. lia. }
  split_and!.
  - done.
  - cbn [escape_markdown]. rewrite escape_text_pass, len_escape_pass.
    pose proof (special_count_le (desc_preview description)).
    unfold len in *. lia.
  - intros Hshort. unfold desc_preview. by rewrite decide_False by lia.
  - intros Hlong. unfold desc_preview. rewrite decide_True by lia.
    destruct (substring_0_prefix 50 description) as [dropped Hdrop].
    exists (String.substring 0 50 description), dropped.
    split_and!; [done| |done].
    unfold len in *. rewrite substring_0_length. lia.
Qed.

(** ** More on [split_message_by_lines] *)

Lemma chunks_from_all_blank chunk_size ls :
  Forall (λ l, l = "") ls → chunks_from chunk_size "" ls = [].
Proof.
  induction 1 as [|l ls -> _ IH]; [done|]. by loop_cases.
Qed.

Lemma split_chunk_nonempty text chunk_size c :
  text ≠ "" → c ∈ split_message_by_lines text chunk_size → c ≠ "".
Proof.
  intros Htext. rewrite split_message_by_lines_unfold. case_decide.
  - by intros ->%list_elem_of_singleton.
  - apply chunks_from_nonempty.
Qed.

Lemma split_chunk_fits text chunk_size c :
  c ∈ split_message_by_lines text chunk_size →
  len c ≤ chunk_size ∨ c ∈ split_newline text.
Proof.
  rewrite split_message_by_lines_unfold. case_decide.
  - intros ->%list_elem_of_singleton. by left.
  - intros Hc. pose proof (chunks_from_nonempty _ _ _ _ Hc).
    apply (chunks_from_fits chunk_size (split_newline text)) in Hc
      as [?|[?|?]]; [done|by left|by right|done|by left].
Qed.

(** X13: the result is empty, so that nothing would be sent, exactly when
    the text is longer than the chunk size and all its lines are empty. *)
Theorem split_nothing_iff text chunk_size :
  split_message_by_lines text chunk_size = []
  ↔ chunk_size < len text ∧ Forall (λ l, l = "") (split_newline text).
Proof.
  split.
  - intros Hnil. pose proof (split_padded text chunk_size) as Hpad.
    apply blank_padded_nonblank in Hpad. rewrite Hnil in Hpad.
    split.
    + rewrite split_message_by_lines_unfold in Hnil.
      case_decide; [done|lia].
    + apply Forall_forall. intros l Hl.
      destruct (decide (l = "")) as [|Hne]; [done|].
      by destruct (filter_nil_not_elem_of nonblank _ l (eq_sym Hpad) Hne).
  - intros [Hlen Hblank].
    rewrite split_message_by_lines_unfold, decide_False by lia.
    by apply chunks_from_all_blank.
Qed.

Lemma chunks_from_nonpositive chunk_size ls cur :
  chunk_size ≤ 0 →
  chunks_from chunk_size cur ls = filter nonblank (cur :: ls).
Proof.
  intros Hcs. revert cur. induction ls as [|l ls IH]; intros cur.
  - rewrite chunks_from_nil.
    destruct (decide (cur = "")) as [->|Hcur]; [done|].
    rewrite decide_True by done. by rewrite filter_cons_True.
  - pose proof (len_nonneg cur). pose proof (len_nonneg l).
    rewrite chunks_from_cons, decide_True by lia.
    rewrite IH.
    destruct (decide (cur = "")) as [->|Hcur]; [done|].
    rewrite decide_True by done.
    by rewrite (filter_cons_True nonblank cur).
Qed.

(** X14: with a chunk size of zero or less, a text longer than it is cut
    into its non-empty lines, one chunk each. *)
Theorem split_nonpositive_limit text chunk_size :
  chunk_size ≤ 0 →
  chunk_size < len text →
  split_message_by_lines text chunk_size
  = filter nonblank (split_newline text).
Proof.
  intros Hcs Hlen.
  rewrite split_message_by_lines_unfold, decide_False by lia.
  rewrite chunks_from_nonpositive by done.
  by rewrite filter_cons_False by (by intros []).
Qed.

Lemma split_nonpositive_limit_witness :
  0 ≤ 0
  ∧ 0 < len ("ab" +:+ NL +:+ NL +:+ "c")
  ∧ split_message_by_lines ("ab" +:+ NL +:+ NL +:+ "c") 0 = ["ab"; "c"].
Proof.
  split_and!; [lia|by vm_compute|].
  apply (split_nonpositive_limit ("ab" +:+ NL +:+ NL +:+ "c") 0);
    [lia|by vm_compute].
Defined.

Lemma join_newline_app ls1 ls2 :
  ls1 ≠ [] → ls2 ≠ [] →
  join_newline (ls1 ++ ls2) = join_newline ls1 +:+ NL +:+ join_newline ls2.
Proof.
  intros H1 H2. induction ls1 as [|l ls1 IH]; [done|].
  destruct ls1 as [|l' ls1].
  - simpl. by rewrite join_newline_cons_nonnil.
  - change ((l :: l' :: ls1) ++ ls2) with (l :: (l' :: ls1) ++ ls2).
    rewrite (join_newline_cons l l' ls1).
    rewrite join_newline_cons_nonnil by done.
    by rewrite IH, !string_app_assoc.
Qed.

Lemma chunk_lines_nonnil c cs : chunk_lines (c :: cs) ≠ [].
Proof.
  rewrite chunk_lines_cons. pose proof (split_newline_nonnil c).
  by destruct (split_newline c).
Qed.

(** Joining the lines of all chunks is joining the chunks. *)
Lemma join_newline_chunk_lines cs :
  join_newline (chunk_lines cs) = join_newline cs.
Proof.
  induction cs as [|c cs IH]; [done|].
  rewrite chunk_lines_cons. destruct cs as [|c' cs].
  - unfold chunk_lines; simpl. by rewrite app_nil_r, join_split_newline.
  - rewrite join_newline_app, IH, join_split_newline;
      [done|apply split_newline_nonnil|apply chunk_lines_nonnil].
Qed.

(** X15: when the text is not longer than the chunk size, or has no empty
    line, joining the chunks with newlines gives the text back. *)
Theorem split_join_round_trip text chunk_size :
  len text ≤ chunk_size ∨ Forall nonblank (split_newline text) →
  join_newline (split_message_by_lines text chunk_size) = text.
Proof.
  intros [Hlen|Hnb].
  - by rewrite split_message_by_lines_unfold, decide_True.
  - rewrite <-join_newline_chunk_lines.
    rewrite (blank_padded_exact _ _ (split_padded text chunk_size) Hnb).
    apply join_split_newline.
Qed.

Lemma split_join_round_trip_witness :
  Forall nonblank (split_newline ("ab" +:+ NL +:+ "cd" +:+ NL +:+ "e"))
  ∧ join_newline
      (split_message_by_lines ("ab" +:+ NL +:+ "cd" +:+ NL +:+ "e") 4)
    = "ab" +:+ NL +:+ "cd" +:+ NL +:+ "e".
Proof.
  assert (Forall nonblank
            (split_newline ("ab" +:+ NL +:+ "cd" +:+ NL +:+ "e"))) as Hnb.
  { vm_compute. by repeat constructor. }
  split; [done|].
  apply (split_join_round_trip ("ab" +:+ NL +:+ "cd" +:+ NL +:+ "e") 4).
  by right.
Defined.

Lemma chunks_from_first_line chunk_size ls cur c :
  Forall newline_free ls →
  (cur = "" ∨ first_line cur ≠ "") →
  c ∈ chunks_from chunk_size cur ls →
  first_line c ≠ "".
Proof.
  revert cur. induction ls as [|l ls IH]; intros cur Hls Hcur.
  - rewrite chunks_from_nil. case_decide; [|by intros ?%elem_of_nil].
    intros ->%list_elem_of_singleton. by destruct Hcur.
  - inversion_clear Hls as [|?? Hl Hls'].
    assert (l = "" ∨ first_line l ≠ "") as Hnext.
    { destruct (decide (l = "")); [by left|right].
      by rewrite first_line_free. }
    loop_cases; eauto.
    + intros [->|?]%elem_of_cons; [by destruct Hcur|eauto].
    + apply IH; [done|]. right. rewrite first_line_app_NL.
      by destruct Hcur.
Qed.

(** X16: past the fast path, no chunk opens with an empty line: its first
    character is never a newline. *)
Theorem split_chunk_opens_with_text text chunk_size c :
  chunk_size < len text →
  c ∈ split_message_by_lines text chunk_size →
  first_line c ≠ "".
Proof.
  intros Hlen. rewrite split_message_by_lines_unfold, decide_False by lia.
  apply chunks_from_first_line; [apply split_newline_lines_free|by left].
Qed.

Lemma split_chunk_opens_with_text_witness :
  2 < len (NL +:+ "ab" +:+ NL +:+ NL +:+ "cd")
  ∧ "cd" ∈ split_message_by_lines (NL +:+ "ab" +:+ NL +:+ NL +:+ "cd") 2
  ∧ first_line "cd" ≠ "".
Proof.
  assert ("cd" ∈ split_message_by_lines
                   (NL +:+ "ab" +:+ NL +:+ NL +:+ "cd") 2) as Hin.
  { vm_compute. apply list_elem_of_further, list_elem_of_here. }
  split_and!; [by vm_compute|done|].
  apply (split_chunk_opens_with_text
           (NL +:+ "ab" +:+ NL +:+ NL +:+ "cd") 2); [by vm_compute|done].
Defined.

Lemma total_weight_cons l ls :
  total_weight (l :: ls) = len l + 1 + total_weight ls.
Proof. reflexivity. Qed.

Lemma total_weight_app ls1 ls2 :
  total_weight (ls1 ++ ls2) = total_weight ls1 + total_weight ls2.
Proof.
  induction ls1 as [|l ls1 IH]; [done|].
  rewrite <-app_comm_cons, !total_weight_cons, IH. lia.
Qed.

Lemma total_weight_split_newline s :
  total_weight (split_newline s) = len s + 1.
Proof.
  induction s as [|c s IH]; [done|].
  rewrite len_cons. pose proof (split_newline_nonnil s) as Hnn.
  cbn [split_newline]. case_decide.
  - rewrite total_weight_cons, IH. change (len "") with 0. lia.
  - destruct (split_newline s) as [|l ls]; [done|].
    rewrite total_weight_cons in *. rewrite len_cons. lia.
Qed.

Lemma blank_padded_weight cs ls :
  blank_padded cs ls → total_weight cs ≤ total_weight ls.
Proof.
  induction 1 as [|cs ls _ IH|c cs ls _ IH].
  - done.
  - rewrite total_weight_cons. change (len "") with 0. lia.
  - rewrite total_weight_app, total_weight_split_newline, total_weight_cons.
    lia.
Qed.

Lemma length_chunk_lines cs : (length cs ≤ length (chunk_lines cs))%nat.
Proof.
  induction cs as [|c cs IH]; [done|].
  rewrite chunk_lines_cons, length_app. simpl.
  pose proof (split_newline_nonnil c).
  destruct (split_newline c); [done|simpl; lia].
Qed.

(** X17: there are never more chunks than the text has lines, and the
    chunks, counting one separator between two of them, never hold more
    characters than the text. *)
Theorem split_never_grows text chunk_size :
  (length (split_message_by_lines text chunk_size)
   ≤ length (split_newline text))%nat
  ∧ total_weight (split_message_by_lines text chunk_size) ≤ len text + 1.
Proof.
  pose proof (split_padded text chunk_size) as Hpad. split.
  - etrans; [apply length_chunk_lines|].
    by apply sublist_length, blank_padded_sublist.
  - rewrite <-total_weight_split_newline. by apply blank_padded_weight.
Qed.

(** ** The sending loop of [tasks_command] *)

Lemma send_chunks_snoc {M : Type} (m : M) init c :
  send_chunks m (init ++ [c])
  = map (λ t, Reply t None) init ++ [Reply c (Some m)].
Proof.
  unfold send_chunks. rewrite imap_app, length_app. simpl. f_equal.
  - rewrite <-imap_const. apply imap_ext. intros i x Hi.
    apply lookup_lt_Some in Hi. simpl.
    rewrite bool_decide_eq_false_2; [done|]. lia.
  - rewrite bool_decide_eq_true_2; [done|]. lia.
Qed.

Lemma send_chunks_texts {M : Type} (m : M) cs :
  map sent_text (send_chunks m cs) = cs.
Proof.
  destruct cs as [|c cs _] using rev_ind; [done|].
  rewrite send_chunks_snoc, map_app, map_map. simpl.
  by rewrite map_id.
Qed.

Lemma split_nonnil text chunk_size l :
  l ∈ split_newline text → l ≠ "" →
  split_message_by_lines text chunk_size ≠ [].
Proof.
  intros Hl Hne Hnil.
  pose proof (split_padded text chunk_size) as Hpad.
  apply blank_padded_nonblank in Hpad. rewrite Hnil in Hpad.
  by destruct (filter_nil_not_elem_of nonblank _ l (eq_sym Hpad) Hne).
Qed.

(** X18: the loop sends the chunks in order, one call each, and attaches
    the keyboard to the last call only; with no chunk it sends nothing. *)
Theorem send_chunks_keyboard_last {M : Type} (m : M) :
  (∀ init c, send_chunks m (init ++ [c])
             = map (λ t, Reply t None) init ++ [Reply c (Some m)])
  ∧ send_chunks m [] = []
  ∧ (∀ cs, map sent_text (send_chunks m cs) = cs).
Proof.
  split_and!; [apply send_chunks_snoc|done|apply send_chunks_texts].
Qed.

(** X19: a message with at least one non-empty line is always answered,
    and the keyboard goes out exactly once, with the last chunk. *)
Theorem send_message_keyboard_once {M : Type} (m : M) message l :
  l ∈ split_newline message →
  l ≠ "" →
  ∃ init c,
    split_message_by_lines message default_chunk_size = init ++ [c]
    ∧ send_message m message
      = map (λ t, Reply t None) init ++ [Reply c (Some m)].
Proof.
  intros Hl Hne. unfold send_message.
  pose proof (split_nonnil message default_chunk_size l Hl Hne) as Hnn.
  destruct (split_message_by_lines message default_chunk_size)
    as [|c init _] using rev_ind; [done|].
  exists init, c. split; [done|apply send_chunks_snoc].
Qed.

Lemma send_message_keyboard_once_witness :
  "ab" ∈ split_newline ("ab" +:+ NL)
  ∧ "ab" ≠ ""
  ∧ ∃ init c,
      split_message_by_lines ("ab" +:+ NL) default_chunk_size = init ++ [c]
      ∧ send_message tt ("ab" +:+ NL)
        = map (λ t, Reply t None) init ++ [Reply c (Some tt)].
Proof.
  assert ("ab" ∈ split_newline ("ab" +:+ NL)) as Hin.
  { vm_compute. apply list_elem_of_here. }
  split_and!; [done|done|].
  by apply (send_message_keyboard_once tt ("ab" +:+ NL) "ab").
Defined.

(** X20: for a non-empty message, no call carries an empty text, and each
    text is at most 4096 characters long unless it is one whole line of
    the message. *)
Theorem send_message_texts_valid {M : Type} (m : M) message r :
  message ≠ "" →
  r ∈ send_message m message →
  sent_text r ≠ ""
  ∧ (len (sent_text r) ≤ 4096 ∨ sent_text r ∈ split_newline message).
Proof.
  intros Hne Hr.
  assert (sent_text r ∈ split_message_by_lines message default_chunk_size)
    as Hc.
  { rewrite <-(send_chunks_texts m). by apply list_elem_of_fmap_2. }
  split.
  - by eapply split_chunk_nonempty.
  - by apply split_chunk_fits in Hc.
Qed.

Lemma send_message_texts_valid_witness :
  "ab" ≠ ""
  ∧ Reply "ab" (Some tt) ∈ send_message tt "ab"
  ∧ sent_text (Reply "ab" (Some tt)) ≠ "".
Proof.
  assert (Reply "ab" (Some tt) ∈ send_message tt "ab") as Hin.
  { vm_compute. apply list_elem_of_here. }
  split_and!; [done|done|].
  by apply (send_message_texts_valid tt "ab" (Reply "ab" (Some tt))).
Defined.
